(** * manopla: the move-selection engine of the training cadence generator

    A shallow embedding of the Go program: the catalog filter
    [applyGlobalOptions], the rule engine ([applyRules], [nextMove]) and the
    round loop of [main], followed by the properties of the specification.

    Conventions of the embedding.
    - Go's [int] is modelled by [Z].  The subtraction [o.seqSize-1] is
      evaluated behind the guard [o.seqSize >= 4] and cannot wrap around; the
      sum [level+1] of manopla.go can, and is written with its wrap-around.
    - [float64] is modelled by the binary64 primitive floats, [m.prob <= p]
      by [PrimFloat.leb].
    - [math/rand] is not part of the repository: its global source is an
      interface ([RandSource]) whose state is threaded explicitly.
    - A run-time panic is a value of type [panic]. *)

From Stdlib Require Import String Ascii ZArith List Bool Lia PrimFloat.
Import ListNotations.
Open Scope Z_scope.
Set Warnings "-inexact-float".

(** ** Data model *)

Record move := Move {
  name : string;
  front : bool;
  back : bool;
  leg : bool;
  prob : float
}.

(** [g_seqSize] is the field [seqSize] of [globalOptions], [seqSize] the one
    of [rulesOptions]; [interval] is a [time.Duration], a count of
    nanoseconds. *)
Record globalOptions := GlobalOptions {
  maxDistinct : Z;
  g_seqSize : Z;
  onlyArm : bool;
  onlyLeg : bool;
  interval : Z
}.

Record rulesOptions := RulesOptions {
  isFront : bool;
  previousMoves : list move;
  seqSize : Z
}.

(** The panics the program can raise. *)
Inductive panic :=
| InvalidArgumentToIntn   (* rand.Intn(n) with n <= 0 *)
| SliceBoundsOutOfRange   (* s[:k] with k < 0 or k > cap(s) *)
| IndexOutOfRange         (* s[i] with i < 0 or i >= len(s) *)
| SpeakerInitError        (* panic(err) after speaker.Init *)
| PlaybackError.          (* panic(err) after playAudio *)

Inductive result (A : Type) :=
| Ok (a : A)
| Panic (p : panic).
Arguments Ok {A} a.
Arguments Panic {A} p.

(** [len] of a slice. *)
Definition len (l : list move) : Z := Z.of_nat (length l).

(** ** The catalog filter *)

(** The three [continue] guards of the loop body of [applyGlobalOptions]:
    [true] when the move is skipped. *)
Definition dropped (o : globalOptions) (m : move) : bool :=
  if onlyLeg o && negb (leg m) then true
  else if onlyArm o && leg m then true
  else if negb (onlyLeg o) && leg m && ((g_seqSize o >? 1) && (g_seqSize o <? 4)) then true
  else false.

(** The [for _, m := range moves] loop, with [result] as accumulator. *)
Fixpoint filterLoop (o : globalOptions) (moves : list move) (acc : list move) : list move :=
  match moves with
  | [] => acc
  | m :: rest =>
      if dropped o m then filterLoop o rest acc
      else filterLoop o rest (acc ++ [m])
  end.

(** [s[:k]], which panics for [k < 0] and for [k > cap(s)].  The capacity
    plays no role in the program: [applyGlobalOptions] slices behind the guard
    [len(result) > o.maxDistinct], and the catalog manopla.go slices is a
    literal, whose capacity is its length. *)
Definition sliceTo (s : list move) (k : Z) : result (list move) :=
  if (k <? 0) || (len s <? k) then Panic SliceBoundsOutOfRange
  else Ok (firstn (Z.to_nat k) s).

Definition applyGlobalOptions (moves : list move) (o : globalOptions) : result (list move) :=
  let result := filterLoop o moves [] in
  if negb (maxDistinct o =? 0) && (len result >? maxDistinct o)
  then sliceTo result (maxDistinct o)
  else Ok result.

(** The moves no [continue] guard skips, in the order of the catalog. *)
Definition survivors (o : globalOptions) (moves : list move) : list move :=
  filter (fun m => negb (dropped o m)) moves.


(** ** The collaborators outside the repository *)

(** The global source of [math/rand].  [Seed] is [rand.Seed], [Float64] is
    [rand.Float64], and [intn n] is the draw of [rand.Intn(n)] for a positive
    [n], which lies in the half-open interval [[0, n)]. *)
Class RandSource := {
  Src : Type;
  Seed : Z -> Src;
  Float64 : Src -> float * Src;
  intn : Z -> Src -> Z * Src;
  intn_range : forall n s, 0 < n -> 0 <= fst (intn n s) < n
}.

(** The audio side: [speakerInit] is [true] when [speaker.Init] returns a nil
    error, [playAudio name] is [true] when the clip of [name] is found, decoded
    and played to its end (a nil error). *)
Class Audio := {
  speakerInit : bool;
  playAudio : string -> bool
}.

Section Engine.
Context {rnd : RandSource} {audio : Audio}.

(** Code that draws from the global source and may panic. *)
Definition Exec (A : Type) : Type := Src -> result (A * Src).

Definition ret {A} (a : A) : Exec A := fun s => Ok (a, s).

Definition bind {A B} (c : Exec A) (k : A -> Exec B) : Exec B :=
  fun s => match c s with
           | Ok (a, s') => k a s'
           | Panic p => Panic p
           end.

Notation "x <- c ;; k" := (bind c (fun x => k))
  (at level 61, c at next level, right associativity).

(** [rand.Intn]: panics on a non-positive argument. *)
Definition randIntn (n : Z) : Exec Z :=
  fun s => if n <=? 0 then Panic InvalidArgumentToIntn else Ok (intn n s).

(** [s[i]]. *)
Definition index (l : list move) (i : Z) : Exec move :=
  fun s => if (i <? 0) || (len l <=? i) then Panic IndexOutOfRange
           else match nth_error l (Z.to_nat i) with
                | Some m => Ok (m, s)
                | None => Panic IndexOutOfRange
                end.

(** ** The rules *)

(** [type rule func(move) bool]; a rule may draw from the global source. *)
Definition rule : Type := move -> Src -> bool * Src.

Definition probabilityRule : rule :=
  fun m s => let (p, s') := Float64 s in (PrimFloat.leb (prob m) p, s').

Definition frontRule : rule := fun m s => (front m, s).
Definition backRule : rule := fun m s => (back m, s).
Definition mustBeLegRule : rule := fun m s => (leg m, s).
Definition mustNotBeLegRule : rule := fun m s => (negb (leg m), s).

(** The inner loop of [applyRules]: the rules are tried in order and the
    first one that fails stops the loop. *)
Fixpoint passAll (rules : list rule) (m : move) (s : Src) : bool * Src :=
  match rules with
  | [] => (true, s)
  | r :: rest =>
      let (ok, s') := r m s in
      if ok then passAll rest m s' else (false, s')
  end.

(** The outer loop of [applyRules], with [allowedMoves] as accumulator. *)
Fixpoint applyRulesLoop (rules : list rule) (possibleMoves allowedMoves : list move)
    (s : Src) : list move * Src :=
  match possibleMoves with
  | [] => (allowedMoves, s)
  | m :: rest =>
      let (pass, s') := passAll rules m s in
      applyRulesLoop rules rest (if pass then allowedMoves ++ [m] else allowedMoves) s'
  end.

Definition applyRules (possibleMoves : list move) (rules : list rule) (s : Src)
    : list move * Src :=
  applyRulesLoop rules possibleMoves [] s.

(** ** The rule engine *)

(** The loop of [nextMove] that sets [hasLeg] and [hasArm]. *)
Definition limbs (possibleMoves : list move) : bool * bool :=
  fold_left (fun (acc : bool * bool) m =>
               let (hasLeg, hasArm) := acc in
               if leg m then (true, hasArm) else (hasLeg, true))
            possibleMoves (false, false).

(** The rule list [nextMove] builds before it calls [applyRules]. *)
Definition nextMoveRules (possibleMoves : list move) (o : rulesOptions) : list rule :=
  let rules := [] ++ [probabilityRule] in
  let rules := if isFront o then rules ++ [frontRule] else rules ++ [backRule] in
  let (hasLeg, hasArm) := limbs possibleMoves in
  if hasLeg && hasArm then
    if (seqSize o >=? 4) && (len (previousMoves o) =? seqSize o - 1)
    then rules ++ [mustBeLegRule]
    else if negb (seqSize o =? 1) then rules ++ [mustNotBeLegRule]
    else rules
  else rules.

(** The subset of the working set that passes every active rule in a call of
    [nextMove] started in state [s]. *)
Definition passing (possibleMoves : list move) (o : rulesOptions) (s : Src) : list move :=
  fst (applyRules possibleMoves (nextMoveRules possibleMoves o) s).

Definition sideRule (o : rulesOptions) : rule :=
  if isFront o then frontRule else backRule.

Definition nextMove (possibleMoves : list move) (o : rulesOptions) : Exec move :=
  fun s =>
    let rules := nextMoveRules possibleMoves o in
    let (allowedMoves, s1) := applyRules possibleMoves rules s in
    (i <- randIntn (len allowedMoves) ;;
     index allowedMoves i) s1.

(** ** The sequence generator *)

(** The loop [for i := 0; i < o.seqSize; i++] of [main]; [n] is the number of
    iterations left.  The state is [moves], [isFront] and the line [s]. *)
Fixpoint seqLoop (possibleMoves : list move) (size : Z) (n : nat)
    (moves : list move) (front : bool) (line : string)
    : Exec (list move * bool * string) :=
  match n with
  | O => ret (moves, front, line)
  | S n' =>
      m <- nextMove possibleMoves (RulesOptions front moves size) ;;
      seqLoop possibleMoves size n' (moves ++ [m]) (negb front)
              (line ++ " " ++ name m)%string
  end.

(** The side after [n] moves of a combo started on side [f]. *)
Definition sideAfter (f : bool) (n : nat) : bool := xorb f (Nat.odd n).

Definition marker (front : bool) : string := if front then "F:" else "T:".

(** What one pass through the body of the outer [for] of [main] does, up to
    the [select]: the line it prints, if any, and how it ends. *)
Inductive pass :=
| Completed (line : string) (front : bool) (s : Src)
| Died (printed : list string) (p : panic).

Definition iteration (possibleMoves : list move) (o : globalOptions)
    (front : bool) (s : Src) : pass :=
  match seqLoop possibleMoves (g_seqSize o) (Z.to_nat (g_seqSize o)) []
                front (marker front) s with
  | Panic p => Died [] p
  | Ok (moves, front', line, s') =>
      if forallb (fun m => playAudio (name m)) moves
      then Completed line front' s'
      else Died [line] PlaybackError
  end.

(** [n] passes of the outer [for]: the lines printed (each is followed by a
    newline on standard output) and either the state in which the next pass
    would start or the panic that ended the process. *)
Fixpoint mainLoop (possibleMoves : list move) (o : globalOptions) (n : nat)
    (front : bool) (s : Src) : list string * result (bool * Src) :=
  match n with
  | O => ([], Ok (front, s))
  | S n' =>
      match iteration possibleMoves o front s with
      | Died printed p => (printed, Panic p)
      | Completed line front' s' =>
          let (out, fin) := mainLoop possibleMoves o n' front' s' in
          (line :: out, fin)
      end
  end.

(** The catalog of [main]. *)
Definition catalog : list move :=
  [ Move "jab" true false false 0;
    Move "direto" false true false 0;
    Move "cruza" true true false 0.3;
    Move "chuta" true true true 0;
    Move "tip" true true true 0.5;
    Move "upper" true true false 0.3;
    Move "cotovelo" true true false 0.5;
    Move "joelho" true true true 0.5 ].

(** [main] with the parsed flags [o], observed after [n] rounds: the source is
    seeded with the constant 2 and the first round starts on the front side.
    [mainSeeded] is [main] with the seed and the catalog made parameters. *)
Definition mainSeeded (seed : Z) (moves : list move) (o : globalOptions) (n : nat)
    : list string * result (bool * Src) :=
  let s := Seed seed in
  match applyGlobalOptions moves o with
  | Panic p => ([], Panic p)
  | Ok possibleMoves =>
      if speakerInit then mainLoop possibleMoves o n true s
      else ([], Panic SpeakerInitError)
  end.

Definition main : globalOptions -> nat -> list string * result (bool * Src) :=
  mainSeeded 2 catalog.

End Engine.

(** ** The earlier program, manopla.go

    It has no catalog filter: the flag [-l] (level) cuts the package-level
    catalog to a prefix, and [nextMove] reads that global and looks for a leg
    move only.  The rules are the same functions, written as closures. *)

Module Legacy.
Section WithSource.
Context {rnd : RandSource}.

Definition possibleMoves : list move :=
  [ Move "jab" true false false 0;
    Move "direto" false true false 0;
    Move "cruza" true true false 0.5;
    Move "chuta" true true true 0;
    Move "tip" true true true 0.5;
    Move "upper" true true false 0.5;
    Move "cotovelo" true true false 0.5;
    Move "joelho" true true true 0 ].

(** [level+1] on a 64-bit [int]. *)
Definition succ64 (z : Z) : Z :=
  (z + 1 + 9223372036854775808) mod 18446744073709551616 - 9223372036854775808.

(** The [if level != 0] block of [main]: the value of the global
    [possibleMoves] from then on. *)
Definition applyLevel (level : Z) (moves : list move) : result (list move) :=
  if negb (level =? 0) then
    let level := if succ64 level >=? len moves then len moves - 2 else level in
    sliceTo moves (succ64 level)
  else Ok moves.

(** The loop that sets [hasLeg], with its [break]. *)
Fixpoint hasLeg (moves : list move) : bool :=
  match moves with
  | [] => false
  | m :: rest => if leg m then true else hasLeg rest
  end.

(** The rule list of [nextMove(moves, count, isFront)], the global
    [possibleMoves] passed as [working]. *)
Definition nextMoveRules (working moves : list move) (count : Z) (isFront : bool)
    : list rule :=
  let rules := [] ++ [probabilityRule] in
  let rules := if isFront then rules ++ [frontRule] else rules ++ [backRule] in
  if hasLeg working then
    if (count >=? 4) && (len moves =? count - 1) then rules ++ [mustBeLegRule]
    else if negb (count =? 1) then rules ++ [mustNotBeLegRule]
    else rules
  else rules.

(** [nextMove]: the filtering loop is written in line there, and is the loop
    of [applyRules]. *)
Definition nextMove (working moves : list move) (count : Z) (isFront : bool)
    : Exec move :=
  fun s =>
    let rules := nextMoveRules working moves count isFront in
    let (allowedMoves, s1) := applyRulesLoop rules working [] s in
    bind (randIntn (len allowedMoves)) (index allowedMoves) s1.

End WithSource.
End Legacy.

(** ** A concrete source and a concrete audio side

    A linear congruential generator stands for the global source where a
    property is evaluated on an input. *)

Definition lcgNext (s : Z) : Z :=
  (s * 6364136223846793005 + 1442695040888963407) mod 18446744073709551616.

Fixpoint floatOfPositive (p : positive) : float :=
  match p with
  | xH => 1
  | xO q => (2 * floatOfPositive q)%float
  | xI q => (2 * floatOfPositive q + 1)%float
  end.

Definition floatOfZ (z : Z) : float :=
  match z with
  | Zpos p => floatOfPositive p
  | _ => 0%float
  end.

(** The upper 53 bits of the state, scaled into [[0, 1)]. *)
Definition lcgFloat64 (s : Z) : float * Z :=
  ((floatOfZ (s / 2048) / 9007199254740992)%float, lcgNext s).

Definition lcgIntn (n : Z) (s : Z) : Z * Z :=
  ((s / 8589934592) mod n, lcgNext s).

#[export] Instance lcgSource : RandSource := {|
  Src := Z;
  Seed := fun seed => lcgNext (seed mod 18446744073709551616);
  Float64 := lcgFloat64;
  intn := lcgIntn;
  intn_range := fun n s H => Z.mod_pos_bound (s / 8589934592) n H
|}.

(** Every clip is present and plays. *)
#[export] Instance soundAudio : Audio := {|
  speakerInit := true;
  playAudio := fun _ => true
|}.

Definition opts (d n : Z) (oa ol : bool) : globalOptions :=
  GlobalOptions d n oa ol 1000000000.

(** A source whose state counts the draws made: every [Float64] is one half
    and [Intn(n)] is the count modulo [n]. *)
Definition tickSource : RandSource := {|
  Src := Z;
  Seed := fun seed => seed;
  Float64 := fun s => (0.5%float, s + 1);
  intn := fun n s => (s mod n, s + 1);
  intn_range := fun n s H => Z.mod_pos_bound s n H
|}.


(** ** Notions used to state the properties *)

Section Notions.
Context {rnd : RandSource}.

(** [n] draws of [rand.Float64] in a row and the state they leave. *)
Fixpoint floatDraws (n : nat) (s : Src) : list float * Src :=
  match n with
  | O => ([], s)
  | S n' =>
      let (p, s1) := Float64 s in
      let (ps, s2) := floatDraws n' s1 in
      (p :: ps, s2)
  end.

(** What the side rule of a call asks of a move. *)
Definition sideAllowed (o : rulesOptions) (m : move) : bool :=
  if isFront o then front m else back m.

(** What the limb rule of a call, when one is installed, asks of a move. *)
Definition limbAllowed (possibleMoves : list move) (o : rulesOptions) (m : move) : bool :=
  if existsb leg possibleMoves && existsb (fun x => negb (leg x)) possibleMoves then
    if (seqSize o >=? 4) && (len (previousMoves o) =? seqSize o - 1) then leg m
    else if negb (seqSize o =? 1) then negb (leg m)
    else true
  else true.

(** A rule that reads the move only, as all rules but [probabilityRule] do. *)
Definition pureRule (p : move -> bool) : rule := fun m s => (p m, s).

(** The test a move and its draw undergo in a call whose rules are
    [probabilityRule] and then the rules of the predicates [ps]. *)
Definition drawn (ps : list (move -> bool)) (mp : move * float) : bool :=
  PrimFloat.leb (prob (fst mp)) (snd mp) && forallb (fun p => p (fst mp)) ps.

(** The test a move and its draw undergo in a call of [nextMove]. *)
Definition chosen (ws : list move) (o : rulesOptions) (mp : move * float) : bool :=
  PrimFloat.leb (prob (fst mp)) (snd mp)
  && (sideAllowed o (fst mp) && limbAllowed ws o (fst mp)).


End Notions.

(** * Properties of the catalog filter *)

Lemma len_nonneg (l : list move) : 0 <= len l.
Proof. unfold len; lia. Qed.


Lemma filterLoop_acc (o : globalOptions) (moves acc : list move) :
  filterLoop o moves acc = acc ++ survivors o moves.
Proof.
  revert acc; induction moves as [|m rest IH]; intro acc; cbn.
  - now rewrite app_nil_r.
  - destruct (dropped o m); cbn; rewrite IH; [reflexivity|].
    now rewrite <- app_assoc.
Qed.

Lemma filterLoop_survivors (o : globalOptions) (moves : list move) :
  filterLoop o moves [] = survivors o moves.
Proof. apply filterLoop_acc. Qed.

Lemma dropped_leg_short (o : globalOptions) (m : move) :
  onlyLeg o = false -> 1 < g_seqSize o < 4 -> leg m = true -> dropped o m = true.
Proof.
  intros Hl [H1 H4] Hm; unfold dropped; rewrite Hl, Hm; cbn.
  destruct (onlyArm o); cbn; [reflexivity|].
  assert ((g_seqSize o >? 1) = true) as -> by lia.
  assert ((g_seqSize o <? 4) = true) as -> by lia.
  reflexivity.
Qed.

Lemma dropped_onlyLeg (o : globalOptions) (m : move) :
  onlyLeg o = true -> dropped o m = negb (leg m) || onlyArm o.
Proof.
  intro Hl; unfold dropped; rewrite Hl; cbn.
  destruct (leg m), (onlyArm o); reflexivity.
Qed.

Lemma applyGlobalOptions_unfold (moves : list move) (o : globalOptions) :
  applyGlobalOptions moves o =
  if negb (maxDistinct o =? 0) && (len (survivors o moves) >? maxDistinct o)
  then sliceTo (survivors o moves) (maxDistinct o)
  else Ok (survivors o moves).
Proof. unfold applyGlobalOptions; now rewrite filterLoop_survivors. Qed.

(** The slice expression is the only place where the filter can panic, and it
    does so exactly for a negative [maxDistinct]. *)
Lemma applyGlobalOptions_returns (moves : list move) (o : globalOptions) :
  0 <= maxDistinct o ->
  applyGlobalOptions moves o =
  Ok (if (maxDistinct o =? 0) || (len (survivors o moves) <=? maxDistinct o)
      then survivors o moves
      else firstn (Z.to_nat (maxDistinct o)) (survivors o moves)).
Proof.
  intro Hd; rewrite applyGlobalOptions_unfold.
  destruct (maxDistinct o =? 0) eqn:E0; cbn; [reflexivity|].
  destruct (len (survivors o moves) >? maxDistinct o) eqn:Eg.
  - assert ((len (survivors o moves) <=? maxDistinct o) = false) as -> by lia.
    unfold sliceTo.
    assert ((maxDistinct o <? 0) = false) as -> by lia.
    assert ((len (survivors o moves) <? maxDistinct o) = false) as -> by lia.
    reflexivity.
  - assert ((len (survivors o moves) <=? maxDistinct o) = true) as -> by lia.
    reflexivity.
Qed.

Lemma applyGlobalOptions_panics (moves : list move) (o : globalOptions) :
  maxDistinct o < 0 -> applyGlobalOptions moves o = Panic SliceBoundsOutOfRange.
Proof.
  intro Hd; rewrite applyGlobalOptions_unfold.
  pose proof (len_nonneg (survivors o moves)) as Hlen.
  assert ((maxDistinct o =? 0) = false) as -> by lia.
  assert ((len (survivors o moves) >? maxDistinct o) = true) as -> by lia.
  cbn; unfold sliceTo.
  assert ((maxDistinct o <? 0) = true) as -> by lia.
  reflexivity.
Qed.

Lemma firstn_Forall {A} (P : A -> Prop) (n : nat) (l : list A) :
  Forall P l -> Forall P (firstn n l).
Proof.
  intro H; rewrite <- (firstn_skipn n l) in H.
  now apply Forall_app in H.
Qed.

Lemma applyGlobalOptions_Forall (P : move -> Prop) (moves ws : list move)
    (o : globalOptions) :
  Forall P (survivors o moves) -> applyGlobalOptions moves o = Ok ws -> Forall P ws.
Proof.
  intros HP; rewrite applyGlobalOptions_unfold.
  destruct (_ && _).
  - unfold sliceTo; destruct (_ || _); [discriminate|].
    intros [= <-]; now apply firstn_Forall.
  - now intros [= <-].
Qed.

Lemma survivors_short_no_leg (o : globalOptions) (moves : list move) :
  onlyLeg o = false -> 1 < g_seqSize o < 4 ->
  Forall (fun m => leg m = false) (survivors o moves).
Proof.
  intros Hl Hn; apply Forall_forall; intros m Hm.
  apply filter_In in Hm as [_ Hm].
  destruct (leg m) eqn:E; [|reflexivity].
  now rewrite (dropped_leg_short o m Hl Hn E) in Hm.
Qed.

(** C1: with leg-only unset and a sequence length strictly between 1 and 4,
    the working set the filter returns contains no leg move, whatever the
    catalog and the other options; the filter returns unless [maxDistinct] is
    negative. *)
Theorem short_sequence_working_set_has_no_leg (moves : list move) (o : globalOptions) :
  onlyLeg o = false -> 1 < g_seqSize o < 4 ->
  match applyGlobalOptions moves o with
  | Ok ws => Forall (fun m => leg m = false) ws
  | Panic _ => maxDistinct o < 0
  end.
Proof.
  intros Hl Hn.
  destruct (applyGlobalOptions moves o) as [ws|p] eqn:E.
  - eapply applyGlobalOptions_Forall; [|exact E].
    now apply survivors_short_no_leg.
  - destruct (Z.lt_ge_cases (maxDistinct o) 0) as [H|H]; [exact H|].
    rewrite (applyGlobalOptions_returns moves o H) in E; discriminate.
Qed.

(** C5, as stated: with both flags set the filter would keep exactly the leg
    moves.  It fails on the catalog of [main]. *)
Lemma both_flags_keep_legs_counterexample :
  ~ (forall (moves : list move) (o : globalOptions),
        onlyLeg o = true -> onlyArm o = true ->
        filterLoop o moves [] = filter leg moves).
Proof.
  intro H.
  specialize (H catalog (opts 0 2 true true) eq_refl eq_refl).
  vm_compute in H. discriminate H.
Qed.

(** C5, amended: the two drops are separate guards.  With leg-only set the
    loop keeps exactly the leg moves when arm-only is unset, and no move at
    all when arm-only is set too. *)
Theorem onlyLeg_filter (moves : list move) (o : globalOptions) :
  onlyLeg o = true ->
  filterLoop o moves [] = if onlyArm o then [] else filter leg moves.
Proof.
  intro Hl; rewrite filterLoop_survivors; unfold survivors.
  induction moves as [|m rest IH]; cbn.
  - now destruct (onlyArm o).
  - rewrite (dropped_onlyLeg o m Hl), IH.
    destruct (leg m), (onlyArm o); reflexivity.
Qed.

(** C7: [maxDistinct = 0] never truncates; a positive [maxDistinct] smaller
    than the number of surviving moves keeps exactly that many of them, the
    first ones in the order of the catalog. *)
Theorem maxDistinct_truncation (moves : list move) (o : globalOptions) :
  (maxDistinct o = 0 -> applyGlobalOptions moves o = Ok (survivors o moves)) /\
  (0 < maxDistinct o -> maxDistinct o < len (survivors o moves) ->
   applyGlobalOptions moves o
     = Ok (firstn (Z.to_nat (maxDistinct o)) (survivors o moves)) /\
   len (firstn (Z.to_nat (maxDistinct o)) (survivors o moves))
     = maxDistinct o).
Proof.
  split.
  - intro H0; rewrite applyGlobalOptions_returns by lia.
    now rewrite H0.
  - intros Hpos Hlt; split.
    + rewrite applyGlobalOptions_returns by lia.
      assert ((maxDistinct o =? 0) = false) as -> by lia.
      assert ((len (survivors o moves) <=? maxDistinct o) = false) as -> by lia.
      reflexivity.
    + unfold len in *; rewrite length_firstn; lia.
Qed.

(** C8: a negative [maxDistinct] makes the slice expression panic, here with
    the catalog of [main] and the flags [-d -1]. *)
Theorem applyGlobalOptions_negative_maxDistinct :
  applyGlobalOptions catalog (opts (-1) 2 false false) = Panic SliceBoundsOutOfRange.
Proof. reflexivity. Qed.

(** * Properties of the rule engine *)

Section RuleEngine.
Context {rnd : RandSource}.


Lemma limbs_acc (ws : list move) (hasLeg hasArm : bool) :
  fold_left (fun (acc : bool * bool) m =>
               let (hasLeg, hasArm) := acc in
               if leg m then (true, hasArm) else (hasLeg, true))
            ws (hasLeg, hasArm)
  = (hasLeg || existsb leg ws, hasArm || existsb (fun m => negb (leg m)) ws).
Proof.
  revert hasLeg hasArm; induction ws as [|m ws IH]; intros hasLeg hasArm; cbn.
  - now rewrite !orb_false_r.
  - destruct (leg m); rewrite IH; cbn.
    + now rewrite orb_true_r.
    + now rewrite orb_true_r.
Qed.

Lemma limbs_existsb (ws : list move) :
  limbs ws = (existsb leg ws, existsb (fun m => negb (leg m)) ws).
Proof. unfold limbs; now rewrite limbs_acc. Qed.

(** The rule list, case by case. *)
Lemma nextMoveRules_cases (ws : list move) (o : rulesOptions) :
  nextMoveRules ws o =
  [probabilityRule; sideRule o] ++
  (if existsb leg ws && existsb (fun m => negb (leg m)) ws then
     if (seqSize o >=? 4) && (len (previousMoves o) =? seqSize o - 1)
     then [mustBeLegRule]
     else if negb (seqSize o =? 1) then [mustNotBeLegRule] else []
   else []).
Proof.
  unfold nextMoveRules, sideRule; rewrite limbs_existsb.
  destruct (isFront o), (existsb leg ws && _); try reflexivity;
    destruct (_ && _); try reflexivity; destruct (negb _); reflexivity.
Qed.

Lemma nextMoveRules_mixed_last (ws : list move) (o : rulesOptions) :
  (exists a, In a ws /\ leg a = false) ->
  (exists l, In l ws /\ leg l = true) ->
  4 <= seqSize o -> len (previousMoves o) = seqSize o - 1 ->
  nextMoveRules ws o = [probabilityRule; sideRule o; mustBeLegRule].
Proof.
  intros [a [Ha La]] [l [Hl Ll]] H4 Hlast; rewrite nextMoveRules_cases.
  assert (existsb leg ws = true) as ->
    by (apply existsb_exists; now exists l).
  assert (existsb (fun m => negb (leg m)) ws = true) as ->
    by (apply existsb_exists; exists a; now rewrite La).
  assert ((seqSize o >=? 4) = true) as -> by lia.
  assert ((len (previousMoves o) =? seqSize o - 1) = true) as -> by lia.
  reflexivity.
Qed.

Lemma nextMoveRules_pure (ws : list move) (o : rulesOptions) :
  Forall (fun m => leg m = false) ws \/ Forall (fun m => leg m = true) ws ->
  nextMoveRules ws o = [probabilityRule; sideRule o].
Proof.
  intro Hpure; rewrite nextMoveRules_cases.
  assert (existsb leg ws && existsb (fun m => negb (leg m)) ws = false) as ->;
    [|reflexivity].
  destruct Hpure as [H|H].
  - replace (existsb leg ws) with false; [reflexivity|].
    symmetry; apply not_true_is_false; intro E.
    apply existsb_exists in E as [m [Hm Lm]].
    rewrite Forall_forall in H; rewrite (H m Hm) in Lm; discriminate.
  - replace (existsb (fun m => negb (leg m)) ws) with false; [apply andb_false_r|].
    symmetry; apply not_true_is_false; intro E.
    apply existsb_exists in E as [m [Hm Lm]].
    rewrite Forall_forall in H; rewrite (H m Hm) in Lm; discriminate.
Qed.

(** A move that passes the rule loop passed each rule of the list. *)
Lemma passAll_true (rules : list rule) (m : move) (s : Src) :
  fst (passAll rules m s) = true ->
  Forall (fun r : rule => exists s0, fst (r m s0) = true) rules.
Proof.
  revert s; induction rules as [|r rest IH]; intros s H; cbn in *.
  - constructor.
  - destruct (r m s) as [ok s1] eqn:E; destruct ok.
    + constructor; [exists s; now rewrite E | now apply (IH s1)].
    + discriminate.
Qed.

Lemma applyRulesLoop_In (rules : list rule) (ws acc : list move) (s : Src) (m : move) :
  In m (fst (applyRulesLoop rules ws acc s)) ->
  In m acc \/ (In m ws /\ exists s0, fst (passAll rules m s0) = true).
Proof.
  revert acc s; induction ws as [|x ws IH]; intros acc s H; cbn in *.
  - now left.
  - destruct (passAll rules x s) as [pass s1] eqn:E.
    apply IH in H as [H|[H1 H2]].
    + destruct pass.
      * apply in_app_or in H as [H|[<-|[]]]; [now left|].
        right; split; [now left|]. exists s; now rewrite E.
      * now left.
    + right; split; [now right | exact H2].
Qed.

Lemma passing_In (ws : list move) (o : rulesOptions) (s : Src) (m : move) :
  In m (passing ws o s) ->
  In m ws /\
  Forall (fun r : rule => exists s0, fst (r m s0) = true) (nextMoveRules ws o).
Proof.
  intro H; apply applyRulesLoop_In in H as [[]|[H1 [s0 H2]]].
  split; [exact H1 | now apply passAll_true with s0].
Qed.

Lemma passing_mixed_last_leg (ws : list move) (o : rulesOptions) (s : Src) (m : move) :
  (exists a, In a ws /\ leg a = false) ->
  (exists l, In l ws /\ leg l = true) ->
  4 <= seqSize o -> len (previousMoves o) = seqSize o - 1 ->
  In m (passing ws o s) -> leg m = true.
Proof.
  intros Harm Hleg H4 Hlast Hin.
  apply passing_In in Hin as [_ Hall].
  rewrite (nextMoveRules_mixed_last ws o Harm Hleg H4 Hlast) in Hall.
  rewrite Forall_forall in Hall.
  destruct (Hall mustBeLegRule) as [s0 H]; [cbn; tauto | exact H].
Qed.

Lemma index_in_range (l : list move) (i : Z) (s : Src) :
  0 <= i < len l -> exists m, index l i s = Ok (m, s) /\ In m l.
Proof.
  intros [H0 Hl]; unfold index.
  assert ((i <? 0) = false) as -> by lia.
  assert ((len l <=? i) = false) as -> by lia.
  cbn. destruct (nth_error l (Z.to_nat i)) as [m|] eqn:E.
  - exists m; split; [reflexivity | eapply nth_error_In; exact E].
  - apply nth_error_None in E. unfold len in Hl. lia.
Qed.

Lemma index_Ok_In (l : list move) (i : Z) (s s' : Src) (m : move) :
  index l i s = Ok (m, s') -> In m l.
Proof.
  unfold index; destruct (_ || _); [discriminate|].
  destruct (nth_error l (Z.to_nat i)) as [x|] eqn:E; [|discriminate].
  intros [= <- _]; eapply nth_error_In; exact E.
Qed.

Lemma nextMove_unfold (ws : list move) (o : rulesOptions) (s : Src) :
  nextMove ws o s =
  bind (randIntn (len (passing ws o s))) (index (passing ws o s))
       (snd (applyRules ws (nextMoveRules ws o) s)).
Proof.
  unfold nextMove, passing.
  now destruct (applyRules ws (nextMoveRules ws o) s).
Qed.

Lemma nextMove_empty (ws : list move) (o : rulesOptions) (s : Src) :
  passing ws o s = [] -> nextMove ws o s = Panic InvalidArgumentToIntn.
Proof. intro H; rewrite nextMove_unfold, H; reflexivity. Qed.

Lemma nextMove_nonempty (ws : list move) (o : rulesOptions) (s : Src) :
  passing ws o s <> [] ->
  exists m s', nextMove ws o s = Ok (m, s') /\ In m (passing ws o s).
Proof.
  intro H; rewrite nextMove_unfold.
  set (allowed := passing ws o s) in *.
  set (s1 := snd (applyRules ws (nextMoveRules ws o) s)).
  assert (0 < len allowed) as Hpos
    by (destruct allowed; [congruence | unfold len; cbn; lia]).
  unfold bind, randIntn.
  assert ((len allowed <=? 0) = false) as -> by lia.
  pose proof (intn_range (len allowed) s1 Hpos) as Hr.
  destruct (intn (len allowed) s1) as [i s2]; cbn in Hr.
  destruct (index_in_range allowed i s2 Hr) as [m [E Hm]].
  exists m, s2; now rewrite E.
Qed.

Lemma nextMove_Ok_passing (ws : list move) (o : rulesOptions) (s s' : Src) (m : move) :
  nextMove ws o s = Ok (m, s') -> In m (passing ws o s).
Proof.
  rewrite nextMove_unfold; unfold bind, randIntn.
  destruct (_ <=? 0); [discriminate|].
  destruct (intn _ _) as [i s2]; apply index_Ok_In.
Qed.

End RuleEngine.

Section RuleEngineClaims.
Context {rnd : RandSource}.

(** The limb rules are none of the rules every call installs: two moves that
    differ in [leg] only tell them apart. *)
Lemma limb_rule_distinct (r : rule) :
  r = mustBeLegRule \/ r = mustNotBeLegRule ->
  r <> probabilityRule /\ r <> frontRule /\ r <> backRule.
Proof.
  pose (a := Move "a" true true false 0).
  pose (l := Move "l" true true true 0).
  pose (s := Seed 0).
  intro Hr; repeat split; intro E;
    assert (fst (r a s) = fst (r l s)) as D
      by (rewrite E; cbn; unfold probabilityRule; cbn;
          try reflexivity; now destruct (Float64 s));
    destruct Hr as [-> | ->]; discriminate D.
Qed.

Lemma no_limb_rule (o : rulesOptions) (r : rule) :
  r = mustBeLegRule \/ r = mustNotBeLegRule ->
  ~ In r [probabilityRule; sideRule o].
Proof.
  intros Hr H; destruct (limb_rule_distinct r Hr) as [Hp [Hf Hb]].
  unfold sideRule in H.
  destruct H as [H|[H|[]]]; [now apply Hp|].
  destruct (isFront o); [now apply Hf | now apply Hb].
Qed.

(** C2: in a working set with both an arm and a leg move, the move
    [nextMove] returns at the last position of a sequence of length at least 4
    is a leg move. *)
Theorem last_move_is_leg (ws : list move) (o : rulesOptions) (s s' : Src) (m : move) :
  (exists a, In a ws /\ leg a = false) ->
  (exists l, In l ws /\ leg l = true) ->
  4 <= seqSize o ->
  len (previousMoves o) = seqSize o - 1 ->
  nextMove ws o s = Ok (m, s') ->
  leg m = true.
Proof.
  intros Harm Hleg H4 Hlast Hret.
  apply nextMove_Ok_passing in Hret.
  exact (passing_mixed_last_leg ws o s m Harm Hleg H4 Hlast Hret).
Qed.

(** C3: a move [nextMove] returns belongs to the working set and is allowed
    on the side of the call: its [front] flag is set when [isFront] is, its
    [back] flag otherwise. *)
Theorem nextMove_member_and_side (ws : list move) (o : rulesOptions) (s s' : Src) (m : move) :
  nextMove ws o s = Ok (m, s') ->
  In m ws /\ (if isFront o then front m else back m) = true.
Proof.
  intro Hret.
  apply nextMove_Ok_passing, passing_In in Hret as [Hin Hall].
  split; [exact Hin|].
  rewrite nextMoveRules_cases, Forall_forall in Hall.
  destruct (Hall (sideRule o)) as [s0 H]; [cbn; tauto|].
  unfold sideRule in H; destruct (isFront o); exact H.
Qed.

(** C4: [nextMove] panics exactly when no move of the working set passes the
    active rules; the panic is the one [rand.Intn] raises on the length 0, and
    with a non-empty passing subset the call returns one of its moves. *)
Theorem nextMove_fails_iff_none_passes (ws : list move) (o : rulesOptions) (s : Src) :
  ((exists p, nextMove ws o s = Panic p) <-> passing ws o s = []) /\
  (passing ws o s = [] -> nextMove ws o s = Panic InvalidArgumentToIntn) /\
  (passing ws o s <> [] ->
   exists m s', nextMove ws o s = Ok (m, s') /\ In m (passing ws o s)).
Proof.
  split; [split|split].
  - intros [p Hp].
    destruct (passing ws o s) as [|x l] eqn:E; [reflexivity|].
    destruct (nextMove_nonempty ws o s) as [m [s' [H _]]]; [rewrite E; discriminate|].
    rewrite H in Hp; discriminate.
  - intro H; eexists; now apply nextMove_empty.
  - apply nextMove_empty.
  - apply nextMove_nonempty.
Qed.

(** C6: on a working set that is pure arm or pure leg the rule list of
    [nextMove] is the probability rule and the side rule, and holds neither
    limb rule.  That is the case of every working set the filter returns with
    leg-only set, whatever the sequence length. *)
Theorem pure_set_has_no_limb_rule (ws : list move) (o : rulesOptions) :
  (Forall (fun m => leg m = false) ws \/ Forall (fun m => leg m = true) ws ->
   nextMoveRules ws o = [probabilityRule; sideRule o] /\
   ~ In mustBeLegRule (nextMoveRules ws o) /\
   ~ In mustNotBeLegRule (nextMoveRules ws o)) /\
  (forall (moves : list move) (g : globalOptions),
     onlyLeg g = true -> applyGlobalOptions moves g = Ok ws ->
     nextMoveRules ws o = [probabilityRule; sideRule o] /\
     forall (m : move) (s : Src),
       passAll (nextMoveRules ws o) m s = passAll [probabilityRule; sideRule o] m s).
Proof.
  split.
  - intro Hpure; rewrite (nextMoveRules_pure ws o Hpure).
    repeat split; apply no_limb_rule; tauto.
  - intros moves g Hl Hws.
    assert (Forall (fun m => leg m = true) ws) as Hlegs.
    { eapply applyGlobalOptions_Forall; [|exact Hws].
      apply Forall_forall; intros m Hm; apply filter_In in Hm as [_ Hm].
      rewrite (dropped_onlyLeg g m Hl) in Hm.
      destruct (leg m); [reflexivity | discriminate]. }
    rewrite (nextMoveRules_pure ws o (or_intror Hlegs)); split; reflexivity.
Qed.

End RuleEngineClaims.

(** * Properties of the sequence generator *)

Section SequenceGenerator.
Context {rnd : RandSource} {audio : Audio}.


Lemma append_assoc (a b c : string) : ((a ++ b) ++ c = a ++ (b ++ c))%string.
Proof. induction a as [|x a IH]; cbn; [reflexivity | now rewrite IH]. Qed.

Lemma append_nil_r (a : string) : (a ++ "")%string = a.
Proof. induction a as [|x a IH]; cbn; [reflexivity | now rewrite IH]. Qed.

Lemma sideAfter_0 (f : bool) : sideAfter f 0 = f.
Proof. unfold sideAfter; cbn; now destruct f. Qed.

Lemma sideAfter_S (f : bool) (n : nat) : sideAfter (negb f) n = sideAfter f (S n).
Proof.
  unfold sideAfter; rewrite Nat.odd_succ, <- Nat.negb_odd.
  now destruct f, (Nat.odd n).
Qed.




(** A combo of at least 4 moves drawn from a mixed working set ends with a
    leg move. *)
Lemma seqLoop_last_leg (ws : list move) (size : Z) (n : nat) (moves : list move)
    (f : bool) (line : string) (s : Src) moves' f' line' s' :
  (exists a, In a ws /\ leg a = false) ->
  (exists l, In l ws /\ leg l = true) ->
  4 <= size -> len moves + Z.of_nat n = size -> (0 < n)%nat ->
  seqLoop ws size n moves f line s = Ok (moves', f', line', s') ->
  exists init m, moves' = init ++ [m] /\ leg m = true.
Proof.
  intros Harm Hleg H4.
  revert moves f line s; induction n as [|n IH]; intros moves f line s Hlen Hn H;
    [lia|].
  cbn in H; unfold bind in H.
  destruct (nextMove ws _ s) as [[m s1]|p] eqn:E; [|discriminate].
  destruct n as [|n].
  - cbn in H; unfold ret in H; injection H as <- _ _ _.
    exists moves, m; split; [reflexivity|].
    apply nextMove_Ok_passing in E.
    apply (passing_mixed_last_leg ws _ s m Harm Hleg) in E; [exact E | exact H4 |].
    cbn; lia.
  - apply IH in H; [exact H | | lia].
    unfold len in *; rewrite length_app; cbn; lia.
Qed.








End SequenceGenerator.

Section SequenceGeneratorClaims.
Context {rnd : RandSource} {audio : Audio}.



End SequenceGeneratorClaims.

(** * The earlier program *)

Section LegacyProperties.
Context {rnd : RandSource}.

Lemma Legacy_hasLeg_existsb (ws : list move) : Legacy.hasLeg ws = existsb leg ws.
Proof. induction ws as [|m ws IH]; cbn; [reflexivity | now rewrite IH]. Qed.

(** The level leaves the catalog whole or cuts it to one of its prefixes. *)
Lemma Legacy_applyLevel_prefix (level : Z) (ws : list move) :
  Legacy.applyLevel level Legacy.possibleMoves = Ok ws ->
  exists n, ws = firstn n Legacy.possibleMoves.
Proof.
  unfold Legacy.applyLevel; destruct (negb (level =? 0)).
  - unfold sliceTo; destruct (_ || _); [discriminate|].
    intros [= <-]; now eexists.
  - intros [= <-]; exists 8%nat; reflexivity.
Qed.

(** In manopla.go too a pure working set gets no limb rule: a prefix of the
    catalog with a leg move starts with the arm move jab, so the only pure
    sets the level can produce have no leg move. *)
Lemma Legacy_level_sets_get_two_rules (level : Z) (ws moves : list move)
    (count : Z) (isFront : bool) :
  Legacy.applyLevel level Legacy.possibleMoves = Ok ws ->
  Forall (fun m => leg m = false) ws \/ Forall (fun m => leg m = true) ws ->
  Legacy.nextMoveRules ws moves count isFront
  = [probabilityRule; if isFront then frontRule else backRule].
Proof.
  intros Hlevel Hpure.
  assert (Legacy.hasLeg ws = false) as Hno.
  { apply Legacy_applyLevel_prefix in Hlevel as [n ->].
    do 4 (destruct n as [|n]; [reflexivity|]).
    exfalso; destruct Hpure as [H|H]; cbn in H.
    - do 3 (apply Forall_inv_tail in H); apply Forall_inv in H; discriminate H.
    - apply Forall_inv in H; discriminate H. }
  unfold Legacy.nextMoveRules; rewrite Hno; now destruct isFront.
Qed.

(** The earlier [nextMove] tests [hasLeg] alone: on the one-move set of
    chuta, which no level produces, it would forbid leg moves. *)
Lemma Legacy_tests_hasLeg_alone :
  Legacy.nextMoveRules [Move "chuta" true true true 0] [] 2 true
  = [probabilityRule; frontRule; mustNotBeLegRule].
Proof. reflexivity. Qed.

End LegacyProperties.

(** * The properties on concrete inputs

    The source is [lcgSource], the audio side [soundAudio]. *)

Lemma short_sequence_working_set_has_no_leg_witness :
  match applyGlobalOptions catalog (opts 0 2 false false) with
  | Ok ws => Forall (fun m => leg m = false) ws
  | Panic _ => maxDistinct (opts 0 2 false false) < 0
  end.
Proof.
  apply (short_sequence_working_set_has_no_leg catalog (opts 0 2 false false)).
  - reflexivity.
  - cbn; lia.
Defined.

Lemma last_move_is_leg_witness :
  exists m s',
    nextMove catalog (RulesOptions false (firstn 3 catalog) 4) (Seed 2) = Ok (m, s') /\
    leg m = true.
Proof.
  assert (nextMove catalog (RulesOptions false (firstn 3 catalog) 4) (Seed 2)
          = Ok (Move "joelho" true true true 0.5, 17529986347606164524)) as E
    by (vm_compute; reflexivity).
  eexists; eexists; split; [exact E|].
  apply (@last_move_is_leg lcgSource catalog (RulesOptions false (firstn 3 catalog) 4)
           (Seed 2) 17529986347606164524 (Move "joelho" true true true 0.5)).
  - exists (Move "jab" true false false 0); split; [cbn; tauto | reflexivity].
  - exists (Move "chuta" true true true 0); split; [cbn; tauto | reflexivity].
  - cbn; lia.
  - reflexivity.
  - exact E.
Defined.

Lemma nextMove_member_and_side_witness :
  exists m s',
    nextMove catalog (RulesOptions true [] 2) (Seed 2) = Ok (m, s') /\
    In m catalog /\ front m = true.
Proof.
  assert (nextMove catalog (RulesOptions true [] 2) (Seed 2)
          = Ok (Move "jab" true false false 0, 17529986347606164524)) as E
    by (vm_compute; reflexivity).
  eexists; eexists; split; [exact E|].
  exact (@nextMove_member_and_side lcgSource catalog (RulesOptions true [] 2) (Seed 2)
           17529986347606164524 (Move "jab" true false false 0) E).
Defined.

(** The empty working set, and the catalog filtered for leg-only and arm-only
    at once, make the first selection panic; the whole catalog does not. *)
Lemma nextMove_fails_iff_none_passes_witness :
  nextMove [] (RulesOptions true [] 2) (Seed 2) = Panic InvalidArgumentToIntn /\
  exists m s',
    nextMove catalog (RulesOptions true [] 2) (Seed 2) = Ok (m, s') /\
    In m (passing catalog (RulesOptions true [] 2) (Seed 2)).
Proof.
  split.
  - apply (proj1 (proj2 (nextMove_fails_iff_none_passes [] (RulesOptions true [] 2) (Seed 2)))).
    reflexivity.
  - apply (proj2 (proj2 (nextMove_fails_iff_none_passes catalog (RulesOptions true [] 2) (Seed 2)))).
    vm_compute; discriminate.
Defined.

Lemma onlyLeg_filter_witness :
  filterLoop (opts 0 2 true true) catalog [] = [] /\
  filterLoop (opts 0 2 false true) catalog [] = filter leg catalog.
Proof.
  split.
  - apply (onlyLeg_filter catalog (opts 0 2 true true)); reflexivity.
  - apply (onlyLeg_filter catalog (opts 0 2 false true)); reflexivity.
Defined.

Lemma pure_set_has_no_limb_rule_witness :
  nextMoveRules (filter leg catalog) (RulesOptions true [] 3)
  = [probabilityRule; frontRule] /\
  nextMoveRules (filter leg catalog) (RulesOptions false (firstn 1 catalog) 3)
  = [probabilityRule; backRule].
Proof.
  split.
  - apply (proj1 (pure_set_has_no_limb_rule (filter leg catalog) (RulesOptions true [] 3))).
    right; cbn; repeat constructor.
  - apply (proj2 (pure_set_has_no_limb_rule (filter leg catalog)
                    (RulesOptions false (firstn 1 catalog) 3))
             catalog (opts 0 3 false true)); reflexivity.
Defined.

Lemma maxDistinct_truncation_witness :
  applyGlobalOptions catalog (opts 0 4 false false) = Ok catalog /\
  applyGlobalOptions catalog (opts 2 4 false false) = Ok (firstn 2 catalog).
Proof.
  split.
  - apply (proj1 (maxDistinct_truncation catalog (opts 0 4 false false))).
    reflexivity.
  - apply (proj2 (maxDistinct_truncation catalog (opts 2 4 false false))).
    + cbn; lia.
    + vm_compute; reflexivity.
Defined.




(** The two-move catalog of jab and direto, two moves per round: every round
    is jab on the front side, then direto on the back side. *)
Example jab_direto_rounds :
  fst (mainSeeded 2 (firstn 2 catalog) (opts 0 2 false false) 3)
  = ["F: jab direto"; "F: jab direto"; "F: jab direto"]%string.
Proof. vm_compute; reflexivity. Qed.

(** Leg-only and arm-only at once: the working set is empty and the first
    selection panics before a line is printed. *)
Example both_flags_run :
  main (opts 0 2 true true) 1 = ([], Panic InvalidArgumentToIntn).
Proof. vm_compute; reflexivity. Qed.

(** * Further properties of the catalog filter *)

Lemma survivors_fixed (o : globalOptions) (l : list move) :
  Forall (fun m => dropped o m = false) l -> survivors o l = l.
Proof.
  unfold survivors; induction 1 as [|m l Hm _ IH]; cbn; [reflexivity|].
  now rewrite Hm, IH.
Qed.

Lemma survivors_kept (o : globalOptions) (moves : list move) :
  Forall (fun m => dropped o m = false) (survivors o moves).
Proof.
  apply Forall_forall; intros m Hm; apply filter_In in Hm as [_ Hm].
  now destruct (dropped o m).
Qed.

(** What a returning call returns: the surviving moves, or their first
    [maxDistinct] ones. *)
Lemma applyGlobalOptions_Ok_inv (moves ws : list move) (o : globalOptions) :
  applyGlobalOptions moves o = Ok ws ->
  0 <= maxDistinct o /\
  (ws = survivors o moves /\ (maxDistinct o = 0 \/ len ws <= maxDistinct o) \/
   ws = firstn (Z.to_nat (maxDistinct o)) (survivors o moves) /\
   0 < maxDistinct o < len (survivors o moves)).
Proof.
  intro H.
  destruct (Z.lt_ge_cases (maxDistinct o) 0) as [Hn|Hn];
    [rewrite (applyGlobalOptions_panics moves o Hn) in H; discriminate|].
  split; [exact Hn|].
  rewrite (applyGlobalOptions_returns moves o Hn) in H.
  destruct (maxDistinct o =? 0) eqn:E0; cbn in H.
  - injection H as <-; left; split; [reflexivity | lia].
  - destruct (len (survivors o moves) <=? maxDistinct o) eqn:El; injection H as <-.
    + left; split; [reflexivity | lia].
    + right; split; [reflexivity | lia].
Qed.

(** X1: the filter is idempotent.  Filtering a working set it returned, under
    the same options, returns that working set. *)
Theorem applyGlobalOptions_idempotent (moves ws : list move) (o : globalOptions) :
  applyGlobalOptions moves o = Ok ws -> applyGlobalOptions ws o = Ok ws.
Proof.
  intro H; apply applyGlobalOptions_Ok_inv in H as [Hn Hws].
  assert (survivors o ws = ws) as Hfix.
  { apply survivors_fixed.
    destruct Hws as [[-> _]|[-> _]]; [|apply firstn_Forall]; apply survivors_kept. }
  assert (maxDistinct o = 0 \/ len ws <= maxDistinct o) as Hlen.
  { destruct Hws as [[_ Hl]|[-> Hl]]; [exact Hl|].
    right; unfold len in *; rewrite length_firstn; lia. }
  rewrite (applyGlobalOptions_returns ws o Hn), Hfix.
  destruct (maxDistinct o =? 0) eqn:E0; [reflexivity|].
  assert ((len ws <=? maxDistinct o) = true) as -> by lia.
  reflexivity.
Qed.

Lemma applyGlobalOptions_idempotent_witness :
  applyGlobalOptions (firstn 2 catalog) (opts 2 4 false false) = Ok (firstn 2 catalog).
Proof.
  apply (applyGlobalOptions_idempotent catalog (firstn 2 catalog) (opts 2 4 false false)).
  vm_compute; reflexivity.
Defined.

(** X2: a working set the filter returns is an initial segment of the
    surviving moves, holds moves of the catalog only, and has at most
    [maxDistinct] moves when [maxDistinct] is positive. *)
Theorem applyGlobalOptions_prefix (moves ws : list move) (o : globalOptions) :
  applyGlobalOptions moves o = Ok ws ->
  (exists rest, survivors o moves = ws ++ rest) /\
  incl ws moves /\
  (0 < maxDistinct o -> len ws <= maxDistinct o).
Proof.
  intro H; apply applyGlobalOptions_Ok_inv in H as [Hn Hws].
  assert (exists rest, survivors o moves = ws ++ rest) as [rest Hrest].
  { destruct Hws as [[-> _]|[-> _]].
    - exists []; now rewrite app_nil_r.
    - eexists; symmetry; apply firstn_skipn. }
  split; [now exists rest|]; split.
  - intros m Hm.
    assert (In m (survivors o moves)) as Hs by (rewrite Hrest; apply in_or_app; now left).
    now apply filter_In in Hs.
  - intro Hpos; destruct Hws as [[_ [H0|Hl]]|[-> Hl]]; [lia | exact Hl |].
    unfold len in *; rewrite length_firstn; lia.
Qed.

Lemma applyGlobalOptions_prefix_witness :
  (exists rest, survivors (opts 2 2 false false) catalog = firstn 2 catalog ++ rest) /\
  incl (firstn 2 catalog) catalog /\
  (0 < maxDistinct (opts 2 2 false false) ->
   len (firstn 2 catalog) <= maxDistinct (opts 2 2 false false)).
Proof.
  apply (applyGlobalOptions_prefix catalog (firstn 2 catalog) (opts 2 2 false false)).
  vm_compute; reflexivity.
Defined.

(** X3: the filter panics exactly when [maxDistinct] is negative, on every
    catalog, the empty one included; the panic is that of the slice
    expression. *)
Theorem applyGlobalOptions_panics_iff (moves : list move) (o : globalOptions) :
  ((exists p, applyGlobalOptions moves o = Panic p) <-> maxDistinct o < 0) /\
  (forall p, applyGlobalOptions moves o = Panic p -> p = SliceBoundsOutOfRange).
Proof.
  split; [split|].
  - intros [p Hp].
    destruct (Z.lt_ge_cases (maxDistinct o) 0) as [Hn|Hn]; [exact Hn|].
    rewrite (applyGlobalOptions_returns moves o Hn) in Hp; discriminate.
  - intro Hn; eexists; now apply applyGlobalOptions_panics.
  - intros p Hp.
    destruct (Z.lt_ge_cases (maxDistinct o) 0) as [Hn|Hn].
    + rewrite (applyGlobalOptions_panics moves o Hn) in Hp; now injection Hp.
    + rewrite (applyGlobalOptions_returns moves o Hn) in Hp; discriminate.
Qed.

Lemma applyGlobalOptions_panics_iff_witness :
  exists p, applyGlobalOptions [] (opts (-3) 1 false false) = Panic p.
Proof.
  apply (proj1 (applyGlobalOptions_panics_iff [] (opts (-3) 1 false false))).
  cbn; lia.
Defined.

Lemma dropped_onlyArm (o : globalOptions) (m : move) :
  onlyArm o = true -> leg m = true -> dropped o m = true.
Proof.
  intros Ha Hm; unfold dropped; rewrite Ha, Hm.
  now destruct (onlyLeg o).
Qed.

(** X4: with arm-only set no leg move reaches the working set, whatever the
    other options; with leg-only unset the loop keeps exactly the arm moves
    of the catalog, in their order. *)
Theorem onlyArm_filter (moves : list move) (o : globalOptions) :
  onlyArm o = true ->
  (forall ws, applyGlobalOptions moves o = Ok ws -> Forall (fun m => leg m = false) ws) /\
  (onlyLeg o = false ->
   filterLoop o moves [] = filter (fun m => negb (leg m)) moves).
Proof.
  intro Ha; split.
  - intros ws Hws; eapply applyGlobalOptions_Forall; [|exact Hws].
    apply Forall_forall; intros m Hm; apply filter_In in Hm as [_ Hm].
    destruct (leg m) eqn:E; [|reflexivity].
    now rewrite (dropped_onlyArm o m Ha E) in Hm.
  - intro Hl; rewrite filterLoop_survivors; unfold survivors.
    apply filter_ext; intro m; unfold dropped; rewrite Ha, Hl; cbn.
    now destruct (leg m).
Qed.

Lemma onlyArm_filter_witness :
  filterLoop (opts 0 5 true false) catalog [] = filter (fun m => negb (leg m)) catalog.
Proof.
  apply (proj2 (onlyArm_filter catalog (opts 0 5 true false) eq_refl)).
  reflexivity.
Defined.

(** X5: without arm-only and leg-only, a sequence length outside 2 and 3
    drops nothing: with [maxDistinct] 0 the working set is the catalog, and
    with a positive [maxDistinct] it is the catalog cut to that length. *)
Theorem unrestricted_filter (moves : list move) (o : globalOptions) :
  onlyArm o = false -> onlyLeg o = false ->
  g_seqSize o <= 1 \/ 4 <= g_seqSize o ->
  0 <= maxDistinct o ->
  applyGlobalOptions moves o =
  Ok (if (maxDistinct o =? 0) || (len moves <=? maxDistinct o)
      then moves else firstn (Z.to_nat (maxDistinct o)) moves).
Proof.
  intros Ha Hl Hn Hd.
  assert (survivors o moves = moves) as Hs.
  { apply survivors_fixed, Forall_forall; intros m _.
    unfold dropped; rewrite Ha, Hl; cbn.
    destruct (leg m); [|reflexivity].
    destruct Hn as [Hn|Hn].
    - assert ((g_seqSize o >? 1) = false) as -> by lia. reflexivity.
    - assert ((g_seqSize o <? 4) = false) as -> by lia.
      now rewrite andb_false_r. }
  now rewrite (applyGlobalOptions_returns moves o Hd), Hs.
Qed.

Lemma unrestricted_filter_witness :
  applyGlobalOptions catalog (opts 0 1 false false) = Ok catalog.
Proof.
  apply (unrestricted_filter catalog (opts 0 1 false false));
    try reflexivity; cbn; lia.
Defined.

(** * Further properties of the rule engine *)

Section RuleEngineMore.
Context {rnd : RandSource}.

Lemma passAll_pure (ps : list (move -> bool)) (m : move) (s : Src) :
  passAll (map pureRule ps) m s = (forallb (fun p => p m) ps, s).
Proof.
  induction ps as [|p ps IH]; cbn [map passAll forallb]; [reflexivity|].
  unfold pureRule at 1; destruct (p m); cbn [andb]; [exact IH | reflexivity].
Qed.

Lemma applyRulesLoop_pure (ps : list (move -> bool)) (ws acc : list move) (s : Src) :
  applyRulesLoop (map pureRule ps) ws acc s
  = (acc ++ filter (fun m => forallb (fun p => p m) ps) ws, s).
Proof.
  revert acc; induction ws as [|m ws IH]; intro acc; cbn [applyRulesLoop filter].
  - now rewrite app_nil_r.
  - rewrite passAll_pure, IH.
    destruct (forallb (fun p => p m) ps); [now rewrite <- app_assoc | reflexivity].
Qed.

(** X6: on rules that read the move only, [applyRules] is the filter by their
    conjunction: it keeps the order of the working set and leaves the source
    untouched.  With no rule at all every move is allowed. *)
Theorem applyRules_pure_rules (ws : list move) (ps : list (move -> bool)) (s : Src) :
  applyRules ws (map pureRule ps) s
  = (filter (fun m => forallb (fun p => p m) ps) ws, s) /\
  applyRules ws [] s = (ws, s).
Proof.
  split.
  - unfold applyRules; now rewrite applyRulesLoop_pure.
  - unfold applyRules.
    change (@nil rule) with (map pureRule []).
    rewrite applyRulesLoop_pure; cbn [app forallb].
    f_equal; induction ws as [|m ws IH]; cbn; [reflexivity | now rewrite IH].
Qed.

Lemma floatDraws_length (n : nat) (s : Src) : length (fst (floatDraws n s)) = n.
Proof.
  revert s; induction n as [|n IH]; intro s; cbn; [reflexivity|].
  destruct (Float64 s) as [p s1]; specialize (IH s1).
  destruct (floatDraws n s1) as [pl s2]; cbn in *; now rewrite IH.
Qed.

Lemma passAll_probability (ps : list (move -> bool)) (m : move) (s : Src) :
  passAll (probabilityRule :: map pureRule ps) m s
  = (drawn ps (m, fst (Float64 s)), snd (Float64 s)).
Proof.
  cbn [passAll]; unfold probabilityRule, drawn.
  destruct (Float64 s) as [p s1]; cbn [fst snd].
  destruct (PrimFloat.leb (prob m) p); cbn [andb]; [apply passAll_pure | reflexivity].
Qed.

Lemma applyRulesLoop_probability (ps : list (move -> bool)) (ws acc : list move) (s : Src) :
  applyRulesLoop (probabilityRule :: map pureRule ps) ws acc s
  = (acc ++ map fst (filter (drawn ps) (combine ws (fst (floatDraws (length ws) s)))),
     snd (floatDraws (length ws) s)).
Proof.
  revert acc s; induction ws as [|m ws IH]; intros acc s.
  - cbn; now rewrite app_nil_r.
  - cbn [applyRulesLoop]; rewrite passAll_probability, IH; cbn [length floatDraws].
    destruct (Float64 s) as [p s1]; cbn [fst snd].
    destruct (floatDraws (length ws) s1) as [pl s2]; cbn [fst snd combine filter].
    destruct (drawn ps (m, p)); cbn [map fst]; [now rewrite <- app_assoc | reflexivity].
Qed.

(** The rule list of a call is the probability rule followed by rules that
    read the move only, and these ask for [sideAllowed] and [limbAllowed]. *)
Lemma nextMoveRules_shape (ws : list move) (o : rulesOptions) :
  exists ps : list (move -> bool),
    nextMoveRules ws o = probabilityRule :: map pureRule ps /\
    forall m, forallb (fun p => p m) ps = sideAllowed o m && limbAllowed ws o m.
Proof.
  rewrite nextMoveRules_cases; unfold sideRule, sideAllowed, limbAllowed.
  destruct (existsb leg ws && existsb (fun x => negb (leg x)) ws).
  - destruct ((seqSize o >=? 4) && (len (previousMoves o) =? seqSize o - 1)).
    + exists [if isFront o then front else back; leg]; split.
      * now destruct (isFront o).
      * intro m; cbn; destruct (isFront o); now rewrite andb_true_r.
    + destruct (negb (seqSize o =? 1)).
      * exists [if isFront o then front else back; fun m => negb (leg m)]; split.
        -- now destruct (isFront o).
        -- intro m; cbn; destruct (isFront o); now rewrite andb_true_r.
      * exists [if isFront o then front else back]; split.
        -- now destruct (isFront o).
        -- intro m; cbn; now destruct (isFront o).
  - exists [if isFront o then front else back]; split.
    + now destruct (isFront o).
    + intro m; cbn; now destruct (isFront o).
Qed.

Lemma applyRules_nextMoveRules (ws : list move) (o : rulesOptions) (s : Src) :
  applyRules ws (nextMoveRules ws o) s
  = (map fst (filter (chosen ws o) (combine ws (fst (floatDraws (length ws) s)))),
     snd (floatDraws (length ws) s)).
Proof.
  destruct (nextMoveRules_shape ws o) as [ps [-> Hps]].
  unfold applyRules; rewrite applyRulesLoop_probability; cbn [app].
  do 2 f_equal; apply filter_ext; intros [m p].
  unfold drawn, chosen; cbn [fst snd]; now rewrite Hps.
Qed.

(** X7: a call of [nextMove] draws one [Float64] per move of the working
    set, in order, whether or not the move passes the other rules.  The passing
    subset is made of the moves whose skip probability is at most their own
    draw and which the side rule and the limb rule of the call allow, in the
    order of the working set. *)
Theorem passing_characterised (ws : list move) (o : rulesOptions) (s : Src) :
  passing ws o s
  = map fst (filter (chosen ws o) (combine ws (fst (floatDraws (length ws) s)))) /\
  snd (applyRules ws (nextMoveRules ws o) s) = snd (floatDraws (length ws) s).
Proof. unfold passing; now rewrite applyRules_nextMoveRules. Qed.

(** X8: a returning call makes, after the [Float64] draws, one [Intn] draw
    on the length of the passing subset and returns the move at the drawn
    index; the state it leaves is the one after these draws. *)
Theorem nextMove_draws (ws : list move) (o : rulesOptions) (s s' : Src) (m : move) :
  nextMove ws o s = Ok (m, s') ->
  let d := intn (len (passing ws o s)) (snd (floatDraws (length ws) s)) in
  nth_error (passing ws o s) (Z.to_nat (fst d)) = Some m /\ s' = snd d.
Proof.
  rewrite nextMove_unfold, applyRules_nextMoveRules; cbn [snd].
  unfold bind, randIntn.
  destruct (len (passing ws o s) <=? 0); [discriminate|].
  destruct (intn _ _) as [i s2]; cbn [fst snd]; unfold index.
  destruct (_ || _); [discriminate|].
  destruct (nth_error (passing ws o s) (Z.to_nat i)) as [x|]; [|discriminate].
  now intros [= -> ->].
Qed.

Lemma nextMoveRules_mixed_interior (ws : list move) (o : rulesOptions) :
  (exists a, In a ws /\ leg a = false) ->
  (exists l, In l ws /\ leg l = true) ->
  seqSize o <> 1 ->
  ~ (4 <= seqSize o /\ len (previousMoves o) = seqSize o - 1) ->
  nextMoveRules ws o = [probabilityRule; sideRule o; mustNotBeLegRule].
Proof.
  intros [a [Ha La]] [l [Hl Ll]] H1 Hnot; rewrite nextMoveRules_cases.
  assert (existsb leg ws = true) as ->
    by (apply existsb_exists; now exists l).
  assert (existsb (fun m => negb (leg m)) ws = true) as ->
    by (apply existsb_exists; exists a; now rewrite La).
  assert (((seqSize o >=? 4) && (len (previousMoves o) =? seqSize o - 1)) = false) as ->.
  { destruct (seqSize o >=? 4) eqn:E4; [|reflexivity].
    destruct (len (previousMoves o) =? seqSize o - 1) eqn:El; [|reflexivity].
    exfalso; apply Hnot; lia. }
  assert ((seqSize o =? 1) = false) as -> by lia.
  reflexivity.
Qed.

Lemma passing_mixed_interior_arm (ws : list move) (o : rulesOptions) (s : Src) (m : move) :
  (exists a, In a ws /\ leg a = false) ->
  (exists l, In l ws /\ leg l = true) ->
  seqSize o <> 1 ->
  ~ (4 <= seqSize o /\ len (previousMoves o) = seqSize o - 1) ->
  In m (passing ws o s) -> leg m = false.
Proof.
  intros Harm Hleg H1 Hnot Hin.
  apply passing_In in Hin as [_ Hall].
  rewrite (nextMoveRules_mixed_interior ws o Harm Hleg H1 Hnot) in Hall.
  rewrite Forall_forall in Hall.
  destruct (Hall mustNotBeLegRule) as [s0 H]; [cbn; tauto|].
  cbn in H; now destruct (leg m).
Qed.

(** X9: in a working set with both an arm and a leg move, every position
    other than the last one of a sequence of length at least 4 is given an arm
    move, unless the sequence has length 1. *)
Theorem interior_move_is_arm (ws : list move) (o : rulesOptions) (s s' : Src) (m : move) :
  (exists a, In a ws /\ leg a = false) ->
  (exists l, In l ws /\ leg l = true) ->
  seqSize o <> 1 ->
  ~ (4 <= seqSize o /\ len (previousMoves o) = seqSize o - 1) ->
  nextMove ws o s = Ok (m, s') ->
  leg m = false.
Proof.
  intros Harm Hleg H1 Hnot Hret.
  apply nextMove_Ok_passing in Hret.
  exact (passing_mixed_interior_arm ws o s m Harm Hleg H1 Hnot Hret).
Qed.

Lemma passing_no_side_move (ws : list move) (o : rulesOptions) (s : Src) :
  Forall (fun m => sideAllowed o m = false) ws -> passing ws o s = [].
Proof.
  intro Hnone.
  destruct (passing ws o s) as [|m l] eqn:E; [reflexivity|].
  assert (In m (passing ws o s)) as Hin by (rewrite E; now left).
  apply passing_In in Hin as [Hin Hall].
  rewrite nextMoveRules_cases, Forall_forall in Hall.
  destruct (Hall (sideRule o)) as [s0 H]; [cbn; tauto|].
  rewrite Forall_forall in Hnone; specialize (Hnone m Hin).
  unfold sideRule, sideAllowed in *; destruct (isFront o); cbn in H; congruence.
Qed.

(** X10: when no move of the working set is allowed on the side of the
    call, and so on the empty working set, [nextMove] panics whatever the
    draws are. *)
Theorem nextMove_no_side_move_panics (ws : list move) (o : rulesOptions) (s : Src) :
  Forall (fun m => sideAllowed o m = false) ws ->
  nextMove ws o s = Panic InvalidArgumentToIntn.
Proof. intro H; apply nextMove_empty; now apply passing_no_side_move. Qed.

Lemma passing_sure_move (ws : list move) (o : rulesOptions) (s : Src) (a : move) :
  In a ws ->
  (forall s0, PrimFloat.leb (prob a) (fst (Float64 s0)) = true) ->
  sideAllowed o a = true -> limbAllowed ws o a = true ->
  In a (passing ws o s).
Proof.
  intros Hin Hsure Hside Hlimb.
  unfold passing; rewrite applyRules_nextMoveRules; cbn [fst].
  assert (forall (l : list move) (s1 : Src), In a l ->
            exists p, In (a, p) (combine l (fst (floatDraws (length l) s1))) /\
                      PrimFloat.leb (prob a) p = true) as Hdraw.
  { induction l as [|x l IH]; intros s1 Ha; [destruct Ha|].
    cbn [length floatDraws].
    destruct (Float64 s1) as [p s2] eqn:E.
    specialize (IH s2).
    destruct (floatDraws (length l) s2) as [pl s3]; cbn [fst combine] in *.
    destruct Ha as [->|Ha].
    - exists p; split; [now left|].
      specialize (Hsure s1); now rewrite E in Hsure.
    - destruct (IH Ha) as [q [Hq Hle]]; exists q; split; [now right | exact Hle]. }
  destruct (Hdraw ws s Hin) as [p [Hp Hle]].
  change a with (fst (a, p)); apply in_map, filter_In; split; [exact Hp|].
  unfold chosen; cbn [fst snd]; now rewrite Hle, Hside, Hlimb.
Qed.

(** X11: a move whose skip probability is at most every draw of the source
    (a skip probability 0 under draws in [[0, 1)]) always passes the
    probability rule: when the working set holds such a move that the side and
    the limb rule of the call allow, [nextMove] returns. *)
Theorem nextMove_returns_with_sure_move (ws : list move) (o : rulesOptions)
    (s : Src) (a : move) :
  In a ws ->
  (forall s0, PrimFloat.leb (prob a) (fst (Float64 s0)) = true) ->
  sideAllowed o a = true -> limbAllowed ws o a = true ->
  exists m s', nextMove ws o s = Ok (m, s').
Proof.
  intros Hin Hsure Hside Hlimb.
  destruct (nextMove_nonempty ws o s) as [m [s' [H _]]]; [|now exists m, s'].
  intro E; pose proof (passing_sure_move ws o s a Hin Hsure Hside Hlimb) as Hp.
  now rewrite E in Hp.
Qed.

End RuleEngineMore.

(** * Further properties of the sequence generator *)

Section SequenceGeneratorMore.
Context {rnd : RandSource} {audio : Audio}.

Lemma passing_side (ws : list move) (o : rulesOptions) (s : Src) (m : move) :
  In m (passing ws o s) -> In m ws /\ sideAllowed o m = true.
Proof.
  intro Hin; apply passing_In in Hin as [Hin Hall]; split; [exact Hin|].
  rewrite nextMoveRules_cases, Forall_forall in Hall.
  destruct (Hall (sideRule o)) as [s0 H]; [cbn; tauto|].
  unfold sideRule, sideAllowed in *; destruct (isFront o); exact H.
Qed.

(** What the inner loop adds to [moves] and to the line. *)
Lemma seqLoop_picks (ws : list move) (size : Z) (n : nat) (moves : list move)
    (f : bool) (line : string) (s : Src) moves' f' line' s' :
  seqLoop ws size n moves f line s = Ok (moves', f', line', s') ->
  exists picks,
    moves' = moves ++ picks /\ length picks = n /\
    line' = (line ++ fold_right (fun m rest => " " ++ name m ++ rest) "" picks)%string /\
    Forall (fun m => In m ws) picks /\
    forall i m, nth_error picks i = Some m ->
                (if sideAfter f i then front m else back m) = true.
Proof.
  revert moves f line s; induction n as [|n IH]; intros moves f line s H; cbn in H.
  - unfold ret in H; injection H as <- _ <- _.
    exists []; cbn; rewrite app_nil_r, append_nil_r.
    repeat split; [constructor | intros [|i] m Hi; discriminate].
  - unfold bind in H.
    destruct (nextMove ws _ s) as [[m s1]|p] eqn:E; [|discriminate].
    apply nextMove_Ok_passing, passing_side in E as [Hin Hside].
    apply IH in H as (picks & -> & <- & -> & Hall & Halt).
    exists (m :: picks); repeat split.
    + now rewrite <- app_assoc.
    + cbn [fold_right]; now rewrite !append_assoc.
    + now constructor.
    + intros [|i] x Hi; cbn in Hi.
      * injection Hi as <-; rewrite sideAfter_0; exact Hside.
      * rewrite <- sideAfter_S; now apply Halt.
Qed.


(** X13: within a round the side alternates from move to move, whichever
    moves are picked: the move at position [i] of a round started on side [f]
    is allowed on the front side when [i] is even and [f] is front or [i] is
    odd and [f] is back, and on the back side otherwise. *)
Theorem round_sides_alternate (ws : list move) (size : Z) (n : nat) (f : bool)
    (line : string) (s : Src) moves' f' line' s' :
  seqLoop ws size n [] f line s = Ok (moves', f', line', s') ->
  forall i m, nth_error moves' i = Some m ->
              (if sideAfter f i then front m else back m) = true.
Proof.
  intro H; apply seqLoop_picks in H as (picks & -> & _ & _ & _ & Halt).
  exact Halt.
Qed.

Lemma seqLoop_limbs (ws : list move) (size : Z) (n : nat) (moves : list move)
    (f : bool) (line : string) (s : Src) moves' f' line' s' :
  (exists a, In a ws /\ leg a = false) ->
  (exists l, In l ws /\ leg l = true) ->
  4 <= size -> len moves + Z.of_nat (S n) = size ->
  seqLoop ws size (S n) moves f line s = Ok (moves', f', line', s') ->
  exists init last,
    moves' = moves ++ init ++ [last] /\
    Forall (fun m => leg m = false) init /\ leg last = true.
Proof.
  intros Harm Hleg H4.
  revert moves f line s; induction n as [|n IH]; intros moves f line s Hlen H;
    cbn [seqLoop] in H; unfold bind in H;
    destruct (nextMove ws _ s) as [[m s1]|p] eqn:E; try discriminate;
    apply nextMove_Ok_passing in E.
  - unfold ret in H; injection H as <- _ _ _.
    exists [], m; repeat split; [constructor|].
    apply (passing_mixed_last_leg ws _ s m Harm Hleg) in E; [exact E | exact H4 |].
    cbn; lia.
  - apply (passing_mixed_interior_arm ws _ s m Harm Hleg) in E; cbn; [| lia | lia].
    apply IH in H as (init & last & -> & Hinit & Hlast).
    + exists (m :: init), last; repeat split; [|now constructor | exact Hlast].
      now rewrite <- app_assoc.
    + unfold len in *; rewrite length_app; cbn [length]; lia.
Qed.

(** X14: a combo of at least 4 moves drawn from a working set with both arm
    and leg moves is made of arm moves followed by one leg move. *)
Theorem long_combo_shape (ws : list move) (size : Z) (f : bool) (line : string)
    (s : Src) moves' f' line' s' :
  (exists a, In a ws /\ leg a = false) ->
  (exists l, In l ws /\ leg l = true) ->
  4 <= size ->
  seqLoop ws size (Z.to_nat size) [] f line s = Ok (moves', f', line', s') ->
  exists init last,
    moves' = init ++ [last] /\
    length init = Z.to_nat (size - 1) /\
    Forall (fun m => leg m = false) init /\ leg last = true.
Proof.
  intros Harm Hleg H4 H.
  pose proof (seqLoop_picks _ _ _ _ _ _ _ _ _ _ _ H) as (picks & Hp & Hlen & _).
  destruct (Z.to_nat size) as [|n] eqn:En; [lia|].
  apply (seqLoop_limbs ws size n [] f line s _ _ _ _ Harm Hleg H4) in H;
    [|cbn; lia].
  destruct H as (init & last & -> & Hinit & Hlast).
  exists init, last; repeat split; try assumption.
  cbn [app] in Hp; rewrite <- Hp in Hlen.
  rewrite length_app in Hlen; cbn in Hlen; lia.
Qed.

(** X15: with a sequence length that is not positive no move is selected
    and no clip is played: every round prints the bare marker of the initial
    side, the side never changes and the source is left untouched. *)
Theorem empty_rounds (ws : list move) (o : globalOptions) (n : nat) (f : bool) (s : Src) :
  g_seqSize o <= 0 ->
  mainLoop ws o n f s = (repeat (marker f) n, Ok (f, s)).
Proof.
  intro Hn; induction n as [|n IH]; cbn [mainLoop repeat]; [reflexivity|].
  unfold iteration.
  assert (Z.to_nat (g_seqSize o) = 0%nat) as -> by lia.
  cbn; fold (iteration ws o); now rewrite IH.
Qed.





Lemma seqLoop_returns (ws : list move) (size : Z) (n : nat) (moves : list move)
    (f : bool) (line : string) (s : Src) :
  (forall f0 prev, exists a,
      In a ws /\
      (forall s0, PrimFloat.leb (prob a) (fst (Float64 s0)) = true) /\
      sideAllowed (RulesOptions f0 prev size) a = true /\
      limbAllowed ws (RulesOptions f0 prev size) a = true) ->
  exists r, seqLoop ws size n moves f line s = Ok r.
Proof.
  intro Hsure; revert moves f line s; induction n as [|n IH]; intros moves f line s.
  - eexists; reflexivity.
  - cbn [seqLoop]; unfold bind.
    destruct (Hsure f moves) as (a & Hin & Ha & Hside & Hlimb).
    destruct (nextMove_nonempty ws (RulesOptions f moves size) s)
      as (m & s1 & -> & _).
    + intro E; pose proof (passing_sure_move ws _ s a Hin Ha Hside Hlimb) as Hp.
      now rewrite E in Hp.
    + apply IH.
Qed.

(** X17: when every clip plays and, for each side and each position, the
    working set holds a move that the rules of the call allow and whose skip
    probability is at most every draw, the round loop never panics: [n] rounds
    print [n] lines. *)
Theorem mainLoop_runs (ws : list move) (o : globalOptions) (n : nat) (f : bool) (s : Src) :
  (forall nm, playAudio nm = true) ->
  (forall f0 prev, exists a,
      In a ws /\
      (forall s0, PrimFloat.leb (prob a) (fst (Float64 s0)) = true) /\
      sideAllowed (RulesOptions f0 prev (g_seqSize o)) a = true /\
      limbAllowed ws (RulesOptions f0 prev (g_seqSize o)) a = true) ->
  exists out f' s',
    mainLoop ws o n f s = (out, Ok (f', s')) /\ length out = n.
Proof.
  intros Hplay Hsure; revert f s; induction n as [|n IH]; intros f s.
  - exists [], f, s; split; reflexivity.
  - cbn [mainLoop]; unfold iteration.
    destruct (seqLoop_returns ws (g_seqSize o) (Z.to_nat (g_seqSize o)) [] f
                (marker f) s Hsure) as [[[[moves f1] line1] s1] ->].
    assert (forallb (fun m => playAudio (name m)) moves = true) as ->
      by (apply forallb_forall; intros m _; apply Hplay).
    destruct (IH f1 s1) as (out & f' & s' & -> & Hlen).
    exists (line1 :: out), f', s'; split; [reflexivity | cbn; now rewrite Hlen].
Qed.

End SequenceGeneratorMore.

(** * Further properties of the earlier program *)

Section LegacyMore.
Context {rnd : RandSource}.

Lemma Legacy_succ64_small (z : Z) :
  -9223372036854775808 <= z + 1 < 9223372036854775808 -> Legacy.succ64 z = z + 1.
Proof.
  intro H; unfold Legacy.succ64.
  rewrite Z.mod_small by lia. lia.
Qed.

(** X18: in manopla.go a positive level [l] keeps the first [l + 1] moves
    of the catalog, and at most all of them but the last: no level other than
    0 gives the whole catalog. *)
Theorem Legacy_positive_level (level : Z) (moves : list move) :
  0 < level < 9223372036854775807 ->
  1 <= len moves <= 9223372036854775807 ->
  Legacy.applyLevel level moves
  = Ok (firstn (Z.to_nat (Z.min (level + 1) (len moves - 1))) moves).
Proof.
  intros Hl Hm; unfold Legacy.applyLevel.
  assert ((level =? 0) = false) as -> by lia; cbn [negb].
  rewrite (Legacy_succ64_small level) by lia.
  destruct (level + 1 >=? len moves) eqn:E.
  - rewrite (Legacy_succ64_small (len moves - 2)) by lia.
    unfold sliceTo.
    assert ((len moves - 2 + 1 <? 0) = false) as -> by lia.
    assert ((len moves <? len moves - 2 + 1) = false) as -> by lia.
    cbn [orb]; do 2 f_equal; lia.
  - rewrite (Legacy_succ64_small level) by lia.
    unfold sliceTo.
    assert ((level + 1 <? 0) = false) as -> by lia.
    assert ((len moves <? level + 1) = false) as -> by lia.
    cbn [orb]; do 2 f_equal; lia.
Qed.

(** X19: in manopla.go the level -1 leaves an empty working set and every
    lower level makes the slice expression panic. *)
Theorem Legacy_negative_level (level : Z) (moves : list move) :
  -9223372036854775808 <= level < 0 ->
  1 <= len moves ->
  Legacy.applyLevel level moves
  = if level =? -1 then Ok [] else Panic SliceBoundsOutOfRange.
Proof.
  intros Hl Hm; unfold Legacy.applyLevel.
  assert ((level =? 0) = false) as -> by lia; cbn [negb].
  rewrite (Legacy_succ64_small level) by lia.
  assert ((level + 1 >=? len moves) = false) as -> by lia.
  rewrite (Legacy_succ64_small level) by lia.
  unfold sliceTo.
  destruct (level =? -1) eqn:E.
  - assert ((level + 1 <? 0) = false) as -> by lia.
    assert ((len moves <? level + 1) = false) as -> by lia.
    replace (level + 1) with 0 by lia; reflexivity.
  - assert ((level + 1 <? 0) = true) as -> by lia.
    reflexivity.
Qed.

Lemma Legacy_rules_agree (ws moves : list move) (count : Z) (f : bool) :
  Legacy.hasLeg ws = false \/ (exists a, In a ws /\ leg a = false) ->
  Legacy.nextMoveRules ws moves count f
  = nextMoveRules ws (RulesOptions f moves count).
Proof.
  intro H; rewrite nextMoveRules_cases; unfold Legacy.nextMoveRules, sideRule.
  rewrite Legacy_hasLeg_existsb in *; cbn [isFront seqSize previousMoves].
  destruct (existsb leg ws) eqn:El; cbn [andb].
  - destruct H as [H|[a [Ha La]]]; [discriminate|].
    assert (existsb (fun m => negb (leg m)) ws = true) as ->
      by (apply existsb_exists; exists a; now rewrite La).
    destruct f, (_ && _); try reflexivity; destruct (negb _); reflexivity.
  - now destruct f.
Qed.

(** X20: on a working set that has an arm move, or no leg move, the
    [nextMove] of manopla.go and the one of the later program are the same
    function of the working set, the previous moves, the sequence length, the
    side and the state of the source. *)
Theorem Legacy_nextMove_agrees (ws moves : list move) (count : Z) (f : bool) (s : Src) :
  Legacy.hasLeg ws = false \/ (exists a, In a ws /\ leg a = false) ->
  Legacy.nextMove ws moves count f s = nextMove ws (RulesOptions f moves count) s.
Proof.
  intro H; unfold Legacy.nextMove, nextMove, applyRules.
  now rewrite (Legacy_rules_agree ws moves count f H).
Qed.

End LegacyMore.

(** * The further properties on concrete inputs *)

Lemma nextMove_draws_witness :
  exists m s',
    @nextMove tickSource catalog (RulesOptions true [] 2) 0 = Ok (m, s') /\
    nth_error (@passing tickSource catalog (RulesOptions true [] 2) 0)
              (Z.to_nat (8 mod 4)) = Some m /\
    s' = 9.
Proof.
  destruct (@nextMove tickSource catalog (RulesOptions true [] 2) 0)
    as [[m s']|p] eqn:E.
  - exists m, s'; split; [reflexivity|].
    exact (@nextMove_draws tickSource catalog (RulesOptions true [] 2) 0 s' m E).
  - vm_compute in E; discriminate E.
Defined.

Lemma interior_move_is_arm_witness :
  exists m s',
    nextMove catalog (RulesOptions true [] 4) (Seed 2) = Ok (m, s') /\ leg m = false.
Proof.
  destruct (nextMove catalog (RulesOptions true [] 4) (Seed 2)) as [[m s']|p] eqn:E.
  - exists m, s'; split; [reflexivity|].
    apply (@interior_move_is_arm lcgSource catalog (RulesOptions true [] 4)
             (Seed 2) s' m).
    + exists (Move "jab" true false false 0); split; [cbn; tauto | reflexivity].
    + exists (Move "chuta" true true true 0); split; [cbn; tauto | reflexivity].
    + cbn; lia.
    + unfold len; cbn; lia.
    + exact E.
  - vm_compute in E; discriminate E.
Defined.

(** The flags [-d 1 -n 2]: jab alone is left, and the second move of the
    first round is asked on the back side. *)
Lemma nextMove_no_side_move_panics_witness :
  nextMove (firstn 1 catalog) (RulesOptions false (firstn 1 catalog) 2) (Seed 2)
  = Panic InvalidArgumentToIntn.
Proof.
  apply (@nextMove_no_side_move_panics lcgSource (firstn 1 catalog)
           (RulesOptions false (firstn 1 catalog) 2) (Seed 2)).
  repeat constructor.
Defined.

Lemma nextMove_returns_with_sure_move_witness :
  exists m s', @nextMove tickSource catalog (RulesOptions true [] 2) 7 = Ok (m, s').
Proof.
  apply (@nextMove_returns_with_sure_move tickSource catalog (RulesOptions true [] 2) 7
           (Move "jab" true false false 0)).
  - cbn; tauto.
  - intro s0; reflexivity.
  - reflexivity.
  - reflexivity.
Defined.


Lemma round_sides_alternate_witness :
  exists moves' f' line' s',
    seqLoop catalog 5 5 [] false "T:" (Seed 2) = Ok (moves', f', line', s') /\
    forall i m, nth_error moves' i = Some m ->
                (if sideAfter false i then front m else back m) = true.
Proof.
  destruct (seqLoop catalog 5 5 [] false "T:" (Seed 2))
    as [[[[moves' f'] line'] s']|p] eqn:E.
  - exists moves', f', line', s'; split; [reflexivity|].
    exact (@round_sides_alternate lcgSource catalog 5 5 false "T:" (Seed 2)
             moves' f' line' s' E).
  - vm_compute in E; discriminate E.
Defined.

Lemma long_combo_shape_witness :
  exists moves' f' line' s',
    seqLoop catalog 4 (Z.to_nat 4) [] true "F:" (Seed 2) = Ok (moves', f', line', s') /\
    exists init last,
      moves' = init ++ [last] /\ length init = Z.to_nat (4 - 1) /\
      Forall (fun m => leg m = false) init /\ leg last = true.
Proof.
  destruct (seqLoop catalog 4 (Z.to_nat 4) [] true "F:" (Seed 2))
    as [[[[moves' f'] line'] s']|p] eqn:E.
  - exists moves', f', line', s'; split; [reflexivity|].
    apply (@long_combo_shape lcgSource catalog 4 true "F:" (Seed 2) moves' f' line' s').
    + exists (Move "jab" true false false 0); split; [cbn; tauto | reflexivity].
    + exists (Move "chuta" true true true 0); split; [cbn; tauto | reflexivity].
    + lia.
    + exact E.
  - vm_compute in E; discriminate E.
Defined.

Lemma empty_rounds_witness :
  mainLoop catalog (opts 0 0 false false) 3 true (Seed 2)
  = (repeat (marker true) 3, Ok (true, Seed 2)).
Proof.
  apply (@empty_rounds lcgSource soundAudio catalog (opts 0 0 false false) 3 true (Seed 2)).
  cbn; lia.
Defined.


(** The working set of the default flags holds jab, allowed on the front
    side, and direto, allowed on the back side, both with skip probability 0. *)
Lemma mainLoop_runs_witness :
  exists out f' s',
    @mainLoop tickSource soundAudio (filter (fun m => negb (leg m)) catalog)
      (opts 0 2 false false) 3 true 0 = (out, Ok (f', s')) /\
    length out = 3%nat.
Proof.
  apply (@mainLoop_runs tickSource soundAudio (filter (fun m => negb (leg m)) catalog)
           (opts 0 2 false false) 3 true 0).
  - intro nm; reflexivity.
  - intros f0 prev; destruct f0.
    + exists (Move "jab" true false false 0); repeat split; cbn; tauto.
    + exists (Move "direto" false true false 0); repeat split; cbn; tauto.
Defined.

Lemma Legacy_positive_level_witness :
  Legacy.applyLevel 1 Legacy.possibleMoves = Ok (firstn 2 Legacy.possibleMoves) /\
  Legacy.applyLevel 100 Legacy.possibleMoves = Ok (firstn 7 Legacy.possibleMoves).
Proof.
  split.
  - apply (Legacy_positive_level 1 Legacy.possibleMoves); unfold len; cbn; lia.
  - apply (Legacy_positive_level 100 Legacy.possibleMoves); unfold len; cbn; lia.
Defined.

Lemma Legacy_negative_level_witness :
  Legacy.applyLevel (-1) Legacy.possibleMoves = Ok [] /\
  Legacy.applyLevel (-2) Legacy.possibleMoves = Panic SliceBoundsOutOfRange.
Proof.
  split.
  - apply (Legacy_negative_level (-1) Legacy.possibleMoves); unfold len; cbn; lia.
  - apply (Legacy_negative_level (-2) Legacy.possibleMoves); unfold len; cbn; lia.
Defined.

Lemma Legacy_nextMove_agrees_witness :
  Legacy.nextMove (firstn 4 Legacy.possibleMoves) [] 2 true (Seed 2)
  = nextMove (firstn 4 Legacy.possibleMoves) (RulesOptions true [] 2) (Seed 2).
Proof.
  apply (@Legacy_nextMove_agrees lcgSource (firstn 4 Legacy.possibleMoves) [] 2 true (Seed 2)).
  right; exists (Move "jab" true false false 0); split; [cbn; tauto | reflexivity].
Defined.
